(** * Nearest-neighbour search of the QMiner tutorial

    A shallow embedding of [search] from
    [3-nearest-neighbor-model/nearest-neighbor-model.js] together with the
    part of the script that prepares the globals it reads ([base],
    [featureSpace], [emails]).

    The function is glue around the qminer library.  The library is not part
    of the repository, so its operations are the fields of the class
    [QMiner]; what its documentation promises about them is the class
    [QMinerLaws].  Everything proved about [search] holds for every library
    that keeps that contract; two small in-memory libraries ([lib_plain],
    [lib_checked]) show that the contract can be met and let the model run.

    Numbers: a JavaScript number is a double.  Every finite double is a
    rational, so scores are values of [Q]; rounding inside the library's
    products, infinities and NaN are outside the model. *)

From Stdlib Require Import QArith ZArith Lia Lqa.
From stdpp Require Import base list strings sorting.

(** ** Numbers *)

(** [x < y] on JavaScript numbers. *)
Definition num_lt (x y : Q) : bool := negb (Qle_bool y x).

(** ** Exceptions *)

(** The outcome of a call that may throw: a value, or the [message] of the
    thrown [Error]. *)
Inductive Exc (A : Type) : Type :=
| Return (a : A)
| Throw (message : string).
Arguments Return {A} a.
Arguments Throw {A} message.

Definition exc_bind {A B : Type} (e : Exc A) (k : A → Exc B) : Exc B :=
  match e with
  | Return a => k a
  | Throw message => Throw message
  end.

#[global] Instance Exc_ret : MRet Exc := @Return.
#[global] Instance Exc_bind : MBind Exc := λ A B k e, exc_bind e k.

(** ** Linear algebra values ([qm.la]) *)

(** [la.Vector]: a dense vector of numbers. *)
Abbreviation Vector := (list Q).

(** [la.IntVector]: a dense vector of integers; here they are positions. *)
Abbreviation IntVector := (list nat).

(** [la.SparseVector]: the non-zero coordinates as (index, value) pairs and
    the dimension of the space. *)
Record SparseVector : Type := {
  dim : nat;
  entries : list (nat * Q)
}.

(** [la.SparseMatrix]: the list of its sparse columns.  The feature matrix
    of a record set has one column per record. *)
Abbreviation SparseMatrix := (list SparseVector).

(** The result object of [sortPerm]: the sorted vector and the permutation
    that sorts it. *)
Record SortResult : Type := {
  vec : Vector;
  perm : IntVector
}.

(** [v[i]] on a library vector.  An index outside the vector is modelled as
    a thrown exception; [search_loop_run] shows that [search] never gets
    there. *)
Definition vec_at {A : Type} (v : list A) (i : nat) : Exc A :=
  match v !! i with
  | Some x => Return x
  | None => Throw "Index out of bounds."
  end.

(** A record set is the sequence of record ids it holds. *)
Abbreviation RecordSet := (list nat).

(** [store.newRecordSet(idVec)]; [newRecordSet()] is [newRecordSet []]. *)
Definition newRecordSet (idVec : IntVector) : RecordSet := idVec.

(** Coordinate [i] of a sparse vector. *)
Definition coord (v : SparseVector) (i : nat) : Q :=
  match List.find (λ e, Nat.eqb e.1 i) (entries v) with
  | Some e => e.2
  | None => 0
  end.

(** Inner product of two sparse vectors. *)
Definition dot (a b : SparseVector) : Q :=
  foldr (λ e acc, e.2 * coord b e.1 + acc)%Q 0%Q (entries a).

(** The transposed matrix times a vector: one inner product per column. *)
Definition transposed_product (M : SparseMatrix) (v : SparseVector) : Vector :=
  map (λ col, dot col v) M.

(** ** The records of the [Email] store *)

(** The schema of the script: [subject], a nullable [body], and [spam]. *)
Record Email : Type := {
  subject : string;
  body : option string;
  spam : bool
}.

(** ** The library *)

(** The qminer operations the script calls.  [Base] is the database,
    [FeatureSpace] the feature extractor built over it, [Rec] a record.
    [push] and [updateRecords] change the object they are called on and so
    return its new state.  The other calls only read: [newRecord] builds a
    record that, as the script notes, is not stored in the database, and the
    extraction and linear algebra calls return fresh values.  Of the calls
    [search] makes, the first four may throw. *)
Class QMiner : Type := {
  Base : Type;
  FeatureSpace : Type;
  Rec : Type;
  (** [base.store('Email').push(email)] *)
  store_push : Base → Email → Base;
  (** [base.store('Email').allRecords] *)
  store_allRecords : Base → RecordSet;
  (** [base.store('Email').newRecord({ subject: query })]; [None] is a
      falsy result. *)
  store_newRecord : Base → string → Exc (option Rec);
  (** [featureSpace.updateRecords(rs)] *)
  fs_updateRecords : FeatureSpace → Base → RecordSet → FeatureSpace;
  (** [featureSpace.extractSparseMatrix(rs)] *)
  fs_extractSparseMatrix : FeatureSpace → Base → RecordSet → Exc SparseMatrix;
  (** [featureSpace.extractSparseVector(rec)] *)
  fs_extractSparseVector : FeatureSpace → Rec → Exc SparseVector;
  (** [M.multiplyT(v)] *)
  la_multiplyT : SparseMatrix → SparseVector → Exc Vector;
  (** [v.sortPerm(asc)] *)
  la_sortPerm : Vector → bool → SortResult
}.

(** What the library documentation says about the linear algebra calls.
    [multiplyT] returns the transposed product whenever it returns (with
    doubles read as the rationals they are and the rounding of the product
    left out); when it returns and when it throws is left to the library.
    [sortPerm] returns the sorted vector together with the permutation of
    positions that produces it; nothing is said about the order of equal
    values. *)
Class QMinerLaws (L : QMiner) : Prop := {
  multiplyT_value : ∀ M v sim,
    la_multiplyT M v = Return sim → sim = transposed_product M v;
  sortPerm_perm : ∀ v asc, perm (la_sortPerm v asc) ≡ₚ seq 0 (length v);
  sortPerm_vec : ∀ v asc,
    Forall2 (λ i x, v !! i = Some x)
      (perm (la_sortPerm v asc)) (vec (la_sortPerm v asc));
  sortPerm_asc : ∀ v,
    StronglySorted (λ x y, x <= y)%Q (vec (la_sortPerm v true));
  sortPerm_desc : ∀ v,
    StronglySorted (λ x y, y <= x)%Q (vec (la_sortPerm v false))
}.

(** ** The script *)

(** What [search] returns: the array [[recordSet, simVec]] or the object
    [{ error: message }]. *)
Inductive SearchResult : Type :=
| Pair (records : RecordSet) (weights : list Q)
| ErrorObject (error : string).

(** The loop [for (let i = 0; i < maxCount; i++) { ... }] of [search].
    [steps] is the number of iterations the loop condition still allows,
    [maxCount - i]; [push] appends. *)
Fixpoint search_loop (sim : Vector) (perm : IntVector) (minSim : Q)
    (steps i : nat) (idVec : IntVector) (simVec : list Q)
    : Exc (IntVector * list Q) :=
  match steps with
  | O => Return (idVec, simVec)
  | S steps' =>
      maxid ← vec_at perm i;
      s ← vec_at sim maxid;
      if num_lt s minSim then Return (idVec, simVec)
      else search_loop sim perm minSim steps' (S i)
             (idVec ++ [maxid]) (simVec ++ [s])
  end.

(** [if (maxCount > sort.perm.length) { maxCount = sort.perm.length; }] *)
Definition clamp (maxCount : Z) (perm : IntVector) : Z :=
  if (Z.of_nat (length perm) <? maxCount)%Z then Z.of_nat (length perm)
  else maxCount.

Section Script.
Context {L : QMiner}.

(** The globals of the script. *)
Record World : Type := {
  base : Base;
  featureSpace : FeatureSpace;
  emails : RecordSet
}.

(** A computation of the script: it reads and may change the globals, and
    it returns or throws. *)
Definition M (A : Type) : Type := World → Exc A * World.

Definition ret {A : Type} (a : A) : M A := λ w, (Return a, w).

Definition bind {A B : Type} (m : M A) (k : A → M B) : M B :=
  λ w, match m w with
       | (Return a, w') => k a w'
       | (Throw message, w') => (Throw message, w')
       end.

#[global] Instance M_ret : MRet M := @ret.
#[global] Instance M_bind : MBind M := λ A B k m, bind m k.

(** A call that only reads the globals. *)
Definition call {A : Type} (f : World → Exc A) : M A := λ w, (f w, w).

(** [try { body } catch (error) { handler(error.message) }] *)
Definition try_catch {A : Type} (body : M A) (handler : string → M A) : M A :=
  λ w, match body w with
       | (Return a, w') => (Return a, w')
       | (Throw message, w') => handler message w'
       end.

(** [for (let email of examples) { base.store('Email').push(email); }] *)
Definition push_all (examples : list Email) : M unit :=
  λ w, (Return (),
        {| base := foldl store_push (base w) examples;
           featureSpace := featureSpace w;
           emails := emails w |}).

(** [let emails = base.store('Email').allRecords;] *)
Definition set_emails : M unit :=
  λ w, (Return (),
        {| base := base w;
           featureSpace := featureSpace w;
           emails := store_allRecords (base w) |}).

(** [featureSpace.updateRecords(emails);] *)
Definition update_feature_space : M unit :=
  λ w, (Return (),
        {| base := base w;
           featureSpace := fs_updateRecords (featureSpace w) (base w) (emails w);
           emails := emails w |}).

(** The script up to the definition of [search]. *)
Definition setup (examples : list Email) : M unit :=
  push_all examples;;
  set_emails;;
  update_feature_space.

(** [function search(query, maxCount=100, minSim=0.05)] *)
Definition search (query : string) (maxCount : Z) (minSim : Q) : M SearchResult :=
  try_catch
    (queryRecord ← call (λ w, store_newRecord (base w) query);
     match queryRecord with
     | None => ret (Pair (newRecordSet []) [])
     | Some queryRecord =>
       ftrMatrix ← call (λ w,
         fs_extractSparseMatrix (featureSpace w) (base w) (emails w));
       vector ← call (λ w,
         fs_extractSparseVector (featureSpace w) queryRecord);
       sim ← call (λ _, la_multiplyT ftrMatrix vector);
       let sort := la_sortPerm sim false in
       let maxCount := clamp maxCount (perm sort) in
       '(idVec, simVec) ← call (λ _,
         search_loop sim (perm sort) minSim (Z.to_nat maxCount) 0 [] []);
       ret (Pair (newRecordSet idVec) simVec)
     end)
    (λ message, ret (ErrorObject message)).

(** The defaults of the parameter list. *)
Definition search_default (query : string) : M SearchResult :=
  search query 100 (5 # 100).
End Script.

(** ** Vocabulary of the statements *)

(** The feature space presents corpus [C] (one column per record of
    [emails]) and query vector [q] to a call of [search]. *)
Definition features `{L : QMiner} (w : World) (query : string)
    (C : SparseMatrix) (q : SparseVector) : Prop :=
  ∃ queryRecord,
    store_newRecord (base w) query = Return (Some queryRecord) ∧
    fs_extractSparseMatrix (featureSpace w) (base w) (emails w) = Return C ∧
    fs_extractSparseVector (featureSpace w) queryRecord = Return q.

(** One of the library calls of [search] throws [message]. *)
Definition library_throws `{L : QMiner} (w : World) (query message : string) : Prop :=
  store_newRecord (base w) query = Throw message ∨
  ∃ queryRecord, store_newRecord (base w) query = Return (Some queryRecord) ∧
    (fs_extractSparseMatrix (featureSpace w) (base w) (emails w) = Throw message ∨
     ∃ C, fs_extractSparseMatrix (featureSpace w) (base w) (emails w) = Return C ∧
       (fs_extractSparseVector (featureSpace w) queryRecord = Throw message ∨
        ∃ q, fs_extractSparseVector (featureSpace w) queryRecord = Return q ∧
          la_multiplyT C q = Throw message)).

(** The longest prefix whose elements all pass [f]. *)
Fixpoint take_while {A : Type} (f : A → bool) (l : list A) : list A :=
  match l with
  | [] => []
  | x :: l' => if f x then x :: take_while f l' else []
  end.

(** The loop keeps an entry when its test [score < minSim] is false. *)
Definition kept (minSim : Q) (p : nat * Q) : bool := negb (num_lt p.2 minSim).

(** Step 4 of the specification, second reading: filter the ranking to the
    scores that reach [minSim], then cut it to the first [maxCount]. *)
Definition filter_then_truncate (sorted : list (nat * Q)) (minSim : Q)
    (maxCount : Z) : list (nat * Q) :=
  take (Z.to_nat maxCount) (List.filter (λ p, Qle_bool minSim p.2) sorted).

(** [sortPerm]'s result as a ranking: the positions with their values. *)
Definition ranking (sort : SortResult) : list (nat * Q) :=
  zip (perm sort) (vec sort).

(** What the loop of [search] emits from a ranking. *)
Definition emitted (sort : SortResult) (minSim : Q) (maxCount : Z) : list (nat * Q) :=
  take_while (kept minSim)
    (take (Z.to_nat (clamp maxCount (perm sort))) (ranking sort)).

(** Scores never increase along the sequence. *)
Definition descending (weights : list Q) : Prop :=
  StronglySorted (λ x y, y <= x)%Q weights.

(** Among equal scores the document ids increase. *)
Definition ties_ascending (ids : list nat) (weights : list Q) : Prop :=
  ∀ i j idi idj si sj,
    i < j → ids !! i = Some idi → ids !! j = Some idj →
    weights !! i = Some si → weights !! j = Some sj →
    (si == sj)%Q → idi < idj.

(** ** Two in-memory libraries *)

(** An order on (position, value) pairs: by value, upwards or downwards,
    and among equal values by position, upwards or downwards. *)
Definition order_leb (val_up idx_up : bool) (a b : nat * Q) : bool :=
  (if val_up then num_lt a.2 b.2 else num_lt b.2 a.2)
  || (Qeq_bool a.2 b.2 && (if idx_up then a.1 <=? b.1 else b.1 <=? a.1)).

Definition order (val_up idx_up : bool) : relation (nat * Q) :=
  λ a b, order_leb val_up idx_up a b = true.

#[global] Instance order_dec val_up idx_up a b : Decision (order val_up idx_up a b) :=
  decide (order_leb val_up idx_up a b = true).

(** Sort the values of [v] with their positions. *)
Definition sort_with (val_up idx_up : bool) (v : Vector) : SortResult :=
  let ps := merge_sort (order val_up idx_up) (zip (seq 0 (length v)) v) in
  {| vec := ps.*2; perm := ps.*1 |}.

(** A feature space given by a table from texts to vectors; a text that is
    not in the table has no feature. *)
Record TableSpace : Type := {
  ts_dim : nat;
  ts_table : list (string * SparseVector)
}.

Definition featurize (fs : TableSpace) (rec : Email) : SparseVector :=
  match List.find (λ e, String.eqb e.1 (subject rec)) (ts_table fs) with
  | Some e => e.2
  | None => {| dim := ts_dim fs; entries := [] |}
  end.

Definition same_dims (M : SparseMatrix) (v : SparseVector) : bool :=
  forallb (λ col, dim col =? dim v) M.

(** The stand-in library.  With [checked], [multiplyT] refuses a matrix
    without columns and operands of different dimensions, as qminer does;
    otherwise it multiplies over the coordinates they share.  With [pairs],
    [sortPerm] sorts the (value, position) pairs, so that a descending sort
    also lists equal values by descending position, as qminer does;
    otherwise equal values stay in the order of their positions. *)
Definition demo_library (checked pairs : bool) : QMiner := {|
  Base := list Email;
  FeatureSpace := TableSpace;
  Rec := Email;
  store_push := λ b email, b ++ [email];
  store_allRecords := λ b, seq 0 (length b);
  store_newRecord := λ b query,
    Return (Some {| subject := query; body := None; spam := false |});
  fs_updateRecords := λ fs b rs, fs;
  fs_extractSparseMatrix := λ fs b rs,
    Return (omap (λ id, featurize fs <$> b !! id) rs);
  fs_extractSparseVector := λ fs rec, Return (featurize fs rec);
  la_multiplyT := λ M v,
    if checked && (bool_decide (M = []) || negb (same_dims M v))
    then Throw "dimensions mismatch"
    else Return (transposed_product M v);
  la_sortPerm := λ v asc, sort_with asc (if pairs then asc else true) v
|}.

Definition lib_plain : QMiner := demo_library false false.
Definition lib_checked : QMiner := demo_library true true.

Definition unit_x : SparseVector := {| dim := 3; entries := [(0, 1%Q)] |}.
Definition unit_y : SparseVector := {| dim := 3; entries := [(1, 1%Q)] |}.
Definition diagonal : SparseVector := {| dim := 3; entries := [(0, 3 # 5); (1, 4 # 5)] |}.
Definition longer : SparseVector := {| dim := 4; entries := [(0, 1%Q)] |}.

Definition demo_space : TableSpace := {|
  ts_dim := 3;
  ts_table := [("learning french", unit_x); ("french lessons", unit_x);
               ("cheap watches", unit_y); ("french watches", diagonal);
               ("learn french", unit_x); ("four words", longer)]
|}.

Definition mail (s : string) : Email := {| subject := s; body := None; spam := false |}.

Definition demo_examples : list Email :=
  [mail "french lessons"; mail "cheap watches"; mail "french watches"].

Definition tied_examples : list Email :=
  [mail "french lessons"; mail "learn french"; mail "cheap watches"].

Definition empty_world (L : QMiner) (b : @Base L) (fs : @FeatureSpace L) : @World L :=
  {| base := b; featureSpace := fs; emails := [] |}.

(** The globals after the script has loaded [examples]. *)
Definition loaded (checked pairs : bool) (examples : list Email)
    : @World (demo_library checked pairs) :=
  (@setup (demo_library checked pairs) examples
     (empty_world (demo_library checked pairs) [] demo_space)).2.

Definition plain_world : @World lib_plain := loaded false false demo_examples.
Definition checked_tied_world : @World lib_checked := loaded true true tied_examples.
Definition bare_world : @World lib_plain := loaded false false [].
Definition checked_bare_world : @World lib_checked := loaded true true [].

(** A world whose only email has a feature vector of dimension 4. *)
Definition mismatched_world : @World lib_checked :=
  loaded true true [mail "four words"].

(** ** The application of [search] *)

(** An exception nobody catches: the [TypeError] of the language, or an
    [Error] thrown by the library. *)
Inductive JsError : Type :=
| TypeError
| LibraryError (message : string).

(** How a run of the script ends. *)
Inductive Outcome : Type :=
| Completed
| Uncaught (error : JsError).

(** What the script does, in order, once [search] is defined: the value it
    prints after ['emails similarity'] ([None] is [undefined]), the record
    it prints, and [base.close()]. *)
Inductive Event (Shown : Type) : Type :=
| LogSimilarity (weight : option Q)
| LogRecord (rec : Shown)
| CloseBase.
Arguments LogSimilarity {Shown} weight.
Arguments LogRecord {Shown} rec.
Arguments CloseBase {Shown}.

Section Application.
Context {L : QMiner}.

(** [rs[i]] on a record set is the library's; [Shown] is what it yields. *)
Context {Shown : Type} (rs_at : RecordSet → nat → Exc Shown).

(** [for (let i = 0; i < 5; i++) { console.log('emails similarity',
    similarEmails[1][i]); console.log(similarEmails[0][1]); }]

    On the object [{ error }] the property [1] is [undefined], and indexing
    [undefined] throws a [TypeError] before anything is printed.  On the
    array, [similarEmails[1]] is the plain array [simVec], so an index past
    its end reads [undefined]. *)
Fixpoint report_loop (similarEmails : SearchResult) (steps i : nat)
    : list (Event Shown) * Outcome :=
  match steps with
  | O => ([], Completed)
  | S steps' =>
      match similarEmails with
      | ErrorObject _ => ([], Uncaught TypeError)
      | Pair records weights =>
          let line := LogSimilarity (weights !! i) in
          match rs_at records 1 with
          | Throw message => ([line], Uncaught (LibraryError message))
          | Return rec =>
              let '(trace, outcome) := report_loop similarEmails steps' (S i) in
              (line :: LogRecord rec :: trace, outcome)
          end
      end
  end.

(** The script from [let similarEmails = search('learning french');] to
    [base.close();]. *)
Definition application (w : World) : list (Event Shown) * Outcome * World :=
  match search_default "learning french" w with
  | (Throw message, w') => ([], Uncaught (LibraryError message), w')
  | (Return similarEmails, w') =>
      match report_loop similarEmails 5 0 with
      | (trace, Completed) => (trace ++ [CloseBase], Completed, w')
      | (trace, Uncaught error) => (trace, Uncaught error, w')
      end
  end.
End Application.

(** * Properties *)

(** ** Numbers *)

Lemma num_lt_true x y : num_lt x y = true ↔ (x < y)%Q.
Proof.
  unfold num_lt. rewrite negb_true_iff.
  destruct (Qle_bool y x) eqn:E.
  - apply Qle_bool_iff in E. split; [discriminate | intros; lra].
  - split; [intros _ | done].
    destruct (Qlt_le_dec x y) as [?|Hle]; [done |].
    apply Qle_bool_iff in Hle. congruence.
Qed.

Lemma num_lt_false x y : num_lt x y = false ↔ (y <= x)%Q.
Proof.
  unfold num_lt. rewrite negb_false_iff. apply Qle_bool_iff.
Qed.

Lemma kept_spec minSim p : kept minSim p = true ↔ (minSim <= p.2)%Q.
Proof. unfold kept. rewrite negb_true_iff. apply num_lt_false. Qed.

Lemma kept_Qle_bool minSim p : kept minSim p = Qle_bool minSim p.2.
Proof. unfold kept, num_lt. apply negb_involutive. Qed.

(** ** Prefixes *)

Section TakeWhile.
Context {A : Type} (f : A → bool).

Lemma take_while_length l : length (take_while f l) ≤ length l.
Proof. induction l as [|x l IH]; simpl; [lia |]. destruct (f x); simpl; lia. Qed.

Lemma take_while_Forall l : Forall (λ x, f x = true) (take_while f l).
Proof.
  induction l as [|x l IH]; simpl; [constructor |].
  destruct (f x) eqn:E; constructor; done.
Qed.

Lemma take_while_lookup l k x :
  take_while f l !! k = Some x → l !! k = Some x.
Proof.
  revert k. induction l as [|y l IH]; intros k; simpl; [done |].
  destruct (f y); [| done]. destruct k; simpl; auto.
Qed.

(** Position [k] is emitted when every element up to it passes. *)
Lemma take_while_lookup_all l k x :
  l !! k = Some x → Forall (λ y, f y = true) (take (S k) l) →
  take_while f l !! k = Some x.
Proof.
  revert k. induction l as [|y l IH]; intros k Hk Hall; [done |].
  rewrite firstn_cons in Hall. apply Forall_cons in Hall as [Hy Hall].
  simpl. rewrite Hy. destruct k as [|k]; [done |]. simpl in *. auto.
Qed.

Lemma take_while_StronglySorted (R : relation A) l :
  StronglySorted R l → StronglySorted R (take_while f l).
Proof.
  induction 1 as [|x l Hs IH Hx]; simpl; [constructor |].
  destruct (f x); constructor; [done |].
  apply Forall_forall. intros y Hy.
  apply list_elem_of_lookup in Hy as [k Hk].
  apply take_while_lookup in Hk.
  eapply Forall_lookup_1 in Hx; eauto.
Qed.
End TakeWhile.

(** On a ranking whose scores never increase, nothing after the first
    rejected entry would pass the filter, so cutting at the first rejection
    and filtering agree. *)
Lemma take_while_take_filter (minSim : Q) (n : nat) (sorted : list (nat * Q)) :
  StronglySorted (λ a b, b.2 <= a.2)%Q sorted →
  take_while (kept minSim) (take n sorted) =
  take n (List.filter (λ p, Qle_bool minSim p.2) sorted).
Proof.
  intros Hs. revert n.
  induction Hs as [|p l Hs IH Hp]; intros n; simpl.
  - by destruct n.
  - destruct n as [|n]; simpl; [by rewrite take_0 |].
    rewrite kept_Qle_bool.
    destruct (Qle_bool minSim p.2) eqn:E; simpl; [by rewrite IH |].
    assert (List.filter (λ p, Qle_bool minSim p.2) l = []) as ->; [| done].
    clear IH Hs. induction Hp as [|y l Hy _ IH]; simpl; [done |].
    destruct (Qle_bool minSim y.2) eqn:Ey; [| done].
    apply Qle_bool_iff in Ey.
    assert (Qle_bool minSim p.2 = true); [| congruence].
    apply Qle_bool_iff. lra.
Qed.

(** ** The loop *)

Lemma vec_at_Some {A : Type} (v : list A) i x : v !! i = Some x → vec_at v i = Return x.
Proof. unfold vec_at. by intros ->. Qed.

(** The loop over the first [steps] entries of a ranking from position [i]:
    it returns, every index it uses is inside its vector, and it appends the
    entries up to the first one below [minSim]. *)
Lemma search_loop_run sim (sorted : list (nat * Q)) minSim steps i idVec simVec :
  Forall (λ p, sim !! p.1 = Some p.2) sorted →
  i + steps ≤ length sorted →
  search_loop sim (sorted.*1) minSim steps i idVec simVec =
  Return (idVec ++ (take_while (kept minSim) (take steps (drop i sorted))).*1,
          simVec ++ (take_while (kept minSim) (take steps (drop i sorted))).*2).
Proof.
  intros Hsim. revert i idVec simVec.
  induction steps as [|steps IH]; intros i idVec simVec Hlen; simpl.
  - by rewrite !app_nil_r.
  - destruct (lookup_lt_is_Some_2 sorted i) as [p Hp]; [lia |].
    rewrite (vec_at_Some (sorted.*1) i p.1) by (by rewrite list_lookup_fmap, Hp).
    simpl. rewrite (vec_at_Some sim p.1 p.2) by (eapply Forall_lookup_1 in Hsim; eauto).
    simpl. rewrite (drop_S _ _ _ Hp). simpl. unfold kept at 1 3.
    destruct (num_lt p.2 minSim); simpl.
    + by rewrite !app_nil_r.
    + rewrite IH by lia. by rewrite <- !app_assoc.
Qed.

Lemma clamp_le maxCount (perm : IntVector) :
  Z.to_nat (clamp maxCount perm) ≤ length perm.
Proof. unfold clamp. destruct (Z.ltb_spec (Z.of_nat (length perm)) maxCount); lia. Qed.

Lemma clamp_le_maxCount maxCount (perm : IntVector) :
  (0 ≤ maxCount)%Z → (Z.of_nat (Z.to_nat (clamp maxCount perm)) ≤ maxCount)%Z.
Proof. unfold clamp. destruct (Z.ltb_spec (Z.of_nat (length perm)) maxCount); lia. Qed.

Lemma clamp_take {A : Type} maxCount (perm : IntVector) (l : list A) :
  length l = length perm →
  take (Z.to_nat (clamp maxCount perm)) l = take (Z.to_nat maxCount) l.
Proof.
  intros Hl. unfold clamp.
  destruct (Z.ltb_spec (Z.of_nat (length perm)) maxCount); [| done].
  rewrite Nat2Z.id, <- Hl, firstn_all. symmetry. apply take_ge. lia.
Qed.

Lemma Forall2_zip {A B : Type} (P : A → B → Prop) l k :
  Forall2 P l k → Forall (λ p, P p.1 p.2) (zip l k).
Proof. induction 1; simpl; constructor; done. Qed.

Lemma StronglySorted_fmap_inv {A B : Type} (f : A → B) (R : relation B) l :
  StronglySorted R (f <$> l) → StronglySorted (λ a b, R (f a) (f b)) l.
Proof.
  induction l as [|x l IH]; intros Hs; [constructor |].
  rewrite fmap_cons in Hs. apply StronglySorted_inv in Hs as [Hl Hx].
  constructor; [auto |]. exact (proj1 (Forall_fmap f (R (f x)) l) Hx).
Qed.

(** ** What the library contract gives *)

Section Laws.
Context {L : QMiner} {HL : QMinerLaws L}.

Lemma sort_lengths v asc :
  length (perm (la_sortPerm v asc)) = length v ∧
  length (vec (la_sortPerm v asc)) = length v.
Proof.
  pose proof (sortPerm_perm v asc) as Hp. pose proof (sortPerm_vec v asc) as Hv.
  apply Permutation_length in Hp. apply Forall2_length in Hv.
  rewrite length_seq in Hp. lia.
Qed.

Lemma ranking_fst v asc : (ranking (la_sortPerm v asc)).*1 = perm (la_sortPerm v asc).
Proof. apply fst_zip. destruct (sort_lengths v asc). lia. Qed.

Lemma ranking_snd v asc : (ranking (la_sortPerm v asc)).*2 = vec (la_sortPerm v asc).
Proof. apply snd_zip. destruct (sort_lengths v asc). lia. Qed.

Lemma ranking_length v asc : length (ranking (la_sortPerm v asc)) = length v.
Proof. rewrite <- (length_fmap fst), ranking_fst. apply sort_lengths. Qed.

Lemma ranking_scores v asc :
  Forall (λ p, v !! p.1 = Some p.2) (ranking (la_sortPerm v asc)).
Proof.
  apply (Forall2_zip (λ i x, v !! i = Some x)), sortPerm_vec.
Qed.

Lemma ranking_descending v :
  StronglySorted (λ a b, b.2 <= a.2)%Q (ranking (la_sortPerm v false)).
Proof.
  apply (StronglySorted_fmap_inv snd (λ x y, y <= x)%Q).
  rewrite ranking_snd. apply sortPerm_desc.
Qed.

(** The loop as [search] calls it. *)
Lemma search_loop_emitted sim minSim maxCount :
  let sort := la_sortPerm sim false in
  search_loop sim (perm sort) minSim (Z.to_nat (clamp maxCount (perm sort))) 0 [] [] =
  Return ((emitted sort minSim maxCount).*1, (emitted sort minSim maxCount).*2).
Proof.
  intros sort. subst sort.
  rewrite <- (ranking_fst sim false) at 1.
  rewrite search_loop_run.
  - by rewrite drop_0.
  - apply ranking_scores.
  - rewrite ranking_length.
    pose proof (clamp_le maxCount (perm (la_sortPerm sim false))).
    destruct (sort_lengths sim false). lia.
Qed.

(** [search], one library call after the other. *)
Lemma search_eq (w : World) query maxCount minSim :
  search query maxCount minSim w =
  (Return
     match store_newRecord (base w) query with
     | Throw message => ErrorObject message
     | Return None => Pair [] []
     | Return (Some queryRecord) =>
       match fs_extractSparseMatrix (featureSpace w) (base w) (emails w) with
       | Throw message => ErrorObject message
       | Return C =>
         match fs_extractSparseVector (featureSpace w) queryRecord with
         | Throw message => ErrorObject message
         | Return q =>
           match la_multiplyT C q with
           | Throw message => ErrorObject message
           | Return sim =>
             Pair (emitted (la_sortPerm sim false) minSim maxCount).*1
                  (emitted (la_sortPerm sim false) minSim maxCount).*2
           end
         end
       end
     end, w).
Proof.
  unfold search, try_catch, mbind, M_bind, bind, call, ret.
  destruct (store_newRecord (base w) query) as [[queryRecord|]|]; try done.
  destruct (fs_extractSparseMatrix _ _ _) as [C|]; try done.
  destruct (fs_extractSparseVector _ _) as [q|]; try done.
  destruct (la_multiplyT C q) as [sim|]; try done.
  by rewrite search_loop_emitted.
Qed.

(** A normal return of [search] over corpus [C] and query vector [q]. *)
Lemma search_pair_inv (w : World) query maxCount minSim C q ids weights :
  features w query C q →
  (search query maxCount minSim w).1 = Return (Pair ids weights) →
  la_multiplyT C q = Return (transposed_product C q) ∧
  ids = (emitted (la_sortPerm (transposed_product C q) false) minSim maxCount).*1 ∧
  weights = (emitted (la_sortPerm (transposed_product C q) false) minSim maxCount).*2.
Proof.
  intros (r & Hr & HC & Hq). rewrite search_eq, Hr, HC, Hq. simpl.
  destruct (la_multiplyT C q) as [sim|] eqn:Hsim; [| done].
  apply multiplyT_value in Hsim as Heq. subst sim.
  intros [= -> ->]. done.
Qed.
End Laws.

(** ** The in-memory libraries keep the contract *)

Lemma order_spec val_up idx_up a b :
  order val_up idx_up a b ↔
  (if val_up then a.2 < b.2 else b.2 < a.2)%Q ∨
  ((a.2 == b.2)%Q ∧ if idx_up then a.1 ≤ b.1 else b.1 ≤ a.1).
Proof.
  unfold order, order_leb.
  rewrite orb_true_iff, andb_true_iff, Qeq_bool_iff.
  destruct val_up, idx_up; rewrite num_lt_true, Nat.leb_le; done.
Qed.

#[global] Instance order_total val_up idx_up : Total (order val_up idx_up).
Proof.
  intros a b. rewrite !order_spec.
  destruct (Q_dec a.2 b.2) as [[?|?]|?], (Nat.le_ge_cases a.1 b.1),
    val_up, idx_up; auto; right; right; split; (lra || lia || done).
Qed.

#[global] Instance order_trans val_up idx_up : Transitive (order val_up idx_up).
Proof.
  intros a b c. rewrite !order_spec.
  destruct val_up, idx_up; intros [?|[? ?]] [?|[? ?]];
    (left; lra) || (right; split; [lra | lia]).
Qed.

Lemma order_down idx_up a b : order false idx_up a b → (b.2 <= a.2)%Q.
Proof. rewrite order_spec. intros [?|[? _]]; lra. Qed.

Lemma order_up idx_up a b : order true idx_up a b → (a.2 <= b.2)%Q.
Proof. rewrite order_spec. intros [?|[? _]]; lra. Qed.

Lemma zip_seq_lookup {A : Type} (v : list A) :
  Forall (λ p, v !! p.1 = Some p.2) (zip (seq 0 (length v)) v).
Proof.
  apply Forall_lookup. intros k [i x] Hk.
  apply lookup_zip_with_Some in Hk as (i' & x' & [= <- <-] & Hi & Hx).
  apply lookup_seq in Hi as [-> _]. done.
Qed.

Lemma sort_with_perm val_up idx_up v :
  perm (sort_with val_up idx_up v) ≡ₚ seq 0 (length v).
Proof.
  unfold sort_with. simpl. rewrite merge_sort_Permutation.
  rewrite fst_zip; [done |]. rewrite length_seq. lia.
Qed.

Lemma sort_with_vec val_up idx_up v :
  Forall2 (λ i x, v !! i = Some x)
    (perm (sort_with val_up idx_up v)) (vec (sort_with val_up idx_up v)).
Proof.
  unfold sort_with. simpl.
  assert (Forall (λ p, v !! p.1 = Some p.2)
            (merge_sort (order val_up idx_up) (zip (seq 0 (length v)) v))) as H.
  { rewrite merge_sort_Permutation. apply zip_seq_lookup. }
  induction H; simpl; constructor; done.
Qed.

Lemma sort_with_desc idx_up v :
  StronglySorted (λ x y, y <= x)%Q (vec (sort_with false idx_up v)).
Proof.
  unfold sort_with. simpl.
  eapply StronglySorted_fmap; [| apply StronglySorted_merge_sort; apply _].
  intros a b. apply order_down.
Qed.

Lemma sort_with_asc idx_up v :
  StronglySorted (λ x y, x <= y)%Q (vec (sort_with true idx_up v)).
Proof.
  unfold sort_with. simpl.
  eapply StronglySorted_fmap; [| apply StronglySorted_merge_sort; apply _].
  intros a b. apply order_up.
Qed.

Lemma demo_library_laws checked pairs : QMinerLaws (demo_library checked pairs).
Proof.
  split; simpl.
  - intros M v sim.
    destruct (checked && (bool_decide (M = []) || negb (same_dims M v)));
      congruence.
  - intros. apply sort_with_perm.
  - intros. apply sort_with_vec.
  - intros. apply sort_with_asc.
  - intros. apply sort_with_desc.
Qed.

(** ** What [search] emits *)

Lemma StronglySorted_lookup {A : Type} (R : relation A) l i j x y :
  StronglySorted R l → i < j → l !! i = Some x → l !! j = Some y → R x y.
Proof.
  intros Hs. revert i j. induction Hs as [|a l Hs IH Ha]; intros i j Hij Hi Hj; [done |].
  destruct j as [|j]; [lia |]. destruct i as [|i]; simpl in *.
  - injection Hi as <-. eapply Forall_lookup_1 in Ha; eauto.
  - apply (IH i j); [lia | done | done].
Qed.

Section Emitted.
Context {L : QMiner} {HL : QMinerLaws L}.
Implicit Types (sim : Vector) (minSim : Q) (maxCount : Z).

Lemma emitted_lookup sim minSim maxCount k p :
  emitted (la_sortPerm sim false) minSim maxCount !! k = Some p →
  ranking (la_sortPerm sim false) !! k = Some p ∧
  (0 ≤ maxCount → Z.of_nat k < maxCount)%Z ∧ (minSim <= p.2)%Q.
Proof.
  intros Hk. unfold emitted in Hk. split_and!.
  - apply take_while_lookup in Hk. by apply lookup_take_Some in Hk as [? _].
  - apply take_while_lookup in Hk. apply lookup_take_Some in Hk as [_ Hlt].
    intros H0. pose proof (clamp_le_maxCount maxCount (perm (la_sortPerm sim false)) H0).
    lia.
  - apply kept_spec. apply list_elem_of_lookup_2 in Hk.
    eapply Forall_forall in Hk; [| apply take_while_Forall]. done.
Qed.


Lemma emitted_negative sim minSim maxCount :
  (maxCount < 0)%Z → emitted (la_sortPerm sim false) minSim maxCount = [].
Proof.
  intros Hneg. unfold emitted, clamp.
  destruct (Z.ltb_spec (Z.of_nat (length (perm (la_sortPerm sim false)))) maxCount);
    [lia |].
  by rewrite Z2Nat.nonpos by lia.
Qed.

Lemma emitted_descending sim minSim maxCount :
  descending (emitted (la_sortPerm sim false) minSim maxCount).*2.
Proof.
  unfold descending, emitted.
  eapply (StronglySorted_fmap snd (λ a b, b.2 <= a.2)%Q); [done |].
  apply take_while_StronglySorted.
  pose proof (ranking_descending sim) as Hs.
  rewrite <- (take_drop (Z.to_nat (clamp maxCount (perm (la_sortPerm sim false))))
                (ranking (la_sortPerm sim false))) in Hs.
  by apply StronglySorted_app_1_l in Hs.
Qed.

(** An entry of the ranking among the first [maxCount] that reaches [minSim]
    is emitted, at its rank. *)
Lemma emitted_included sim minSim maxCount k p :
  (Z.of_nat k < maxCount)%Z →
  ranking (la_sortPerm sim false) !! k = Some p →
  (minSim <= p.2)%Q →
  emitted (la_sortPerm sim false) minSim maxCount !! k = Some p.
Proof.
  intros Hk Hp Hmin. unfold emitted.
  assert (k < Z.to_nat (clamp maxCount (perm (la_sortPerm sim false)))) as Hlt.
  { apply lookup_lt_Some in Hp. rewrite ranking_length in Hp.
    destruct (sort_lengths sim false) as [Hl _].
    unfold clamp. rewrite Hl.
    destruct (Z.ltb_spec (Z.of_nat (length sim)) maxCount); lia. }
  apply take_while_lookup_all.
  - by rewrite lookup_take_lt.
  - rewrite take_take. apply Forall_lookup. intros j y Hj.
    apply lookup_take_Some in Hj as [Hj Hjk]. apply kept_spec.
    destruct (decide (j = k)) as [->|Hne]; [congruence |].
    assert (p.2 <= y.2)%Q; [| lra].
    apply (StronglySorted_lookup (λ a b, b.2 <= a.2)%Q
             (ranking (la_sortPerm sim false)) j k y p);
      [apply ranking_descending | lia | done | done].
Qed.
End Emitted.

(** ** The search *)

Section Search.
Context {L : QMiner} {HL : QMinerLaws L}.
Implicit Types (w : World) (query : string) (minSim : Q) (maxCount : Z).


(** C2: every returned score reaches [minSim], and the bound is inclusive:
    a document ranked among the first [maxCount] whose score is [minSim] or
    more is returned at its rank, so the threshold drops only scores
    strictly below it. *)
Theorem search_threshold_inclusive w query maxCount minSim C q ids weights :
  features w query C q →
  (search query maxCount minSim w).1 = Return (Pair ids weights) →
  Forall (λ s, minSim <= s)%Q weights ∧
  ∀ k id s,
    (Z.of_nat k < maxCount)%Z →
    perm (la_sortPerm (transposed_product C q) false) !! k = Some id →
    transposed_product C q !! id = Some s →
    (minSim <= s)%Q →
    ids !! k = Some id ∧ weights !! k = Some s.
Proof.
  intros Hf Hs. destruct (search_pair_inv _ _ _ _ _ _ _ _ Hf Hs) as (_ & -> & ->).
  split.
  - apply Forall_lookup. intros k s Hk.
    apply list_lookup_fmap_Some_1 in Hk as (p & -> & Hp).
    by apply emitted_lookup in Hp as (_ & _ & ?).
  - intros k id s Hk Hid Hscore Hmin.
    set (sim := transposed_product C q) in *.
    destruct (lookup_lt_is_Some_2 (ranking (la_sortPerm sim false)) k) as [p Hp].
    { rewrite <- (length_fmap fst), ranking_fst. by eapply lookup_lt_Some. }
    assert (p = (id, s)) as ->.
    { pose proof (ranking_scores sim false) as Hsc.
      eapply Forall_lookup_1 in Hsc; [| exact Hp].
      destruct p as [i x]. apply lookup_zip_Some in Hp as [Hi _].
      simpl in Hsc.
      assert (Some i = Some id) as [= ->] by (by etransitivity; [symmetry; exact Hi |]).
      assert (Some x = Some s) as [= ->] by (by etransitivity; [symmetry; exact Hsc |]).
      done. }
    pose proof (emitted_included sim minSim maxCount k (id, s) Hk Hp Hmin) as He.
    by rewrite !list_lookup_fmap, He.
Qed.

(** C3, as the code has it: the returned scores never increase along the
    sequence.  The order of documents with equal scores is the one
    [sortPerm] produced. *)
Theorem search_sorted_descending w query maxCount minSim ids weights :
  (search query maxCount minSim w).1 = Return (Pair ids weights) →
  descending weights.
Proof.
  rewrite search_eq. simpl.
  destruct (store_newRecord (base w) query) as [[queryRecord|]|]; [| | done].
  - destruct (fs_extractSparseMatrix _ _ _) as [C|]; [| done].
    destruct (fs_extractSparseVector _ _) as [q|]; [| done].
    destruct (la_multiplyT C q) as [sim|]; [| done].
    intros [= <- <-]. apply emitted_descending.
  - intros [= <- <-]. constructor.
Qed.

(** [search] itself never throws: the [catch] turns every exception into a
    returned object. *)
Lemma search_returns w query maxCount minSim :
  ∃ result, search query maxCount minSim w = (Return result, w).
Proof. rewrite search_eq. eauto. Qed.

(** The error object carries the message of the library call that threw,
    and arises in no other way. *)
Lemma search_error_iff w query maxCount minSim message :
  (search query maxCount minSim w).1 = Return (ErrorObject message) ↔
  library_throws w query message.
Proof.
  rewrite search_eq. unfold library_throws. simpl. split.
  - destruct (store_newRecord (base w) query) as [[queryRecord|]|m0];
      [| done | intros [= ->]; by left].
    intros Hres. right. exists queryRecord. split; [done |].
    destruct (fs_extractSparseMatrix _ _ _) as [C|m1];
      [| injection Hres as ->; by left].
    right. exists C. split; [done |].
    destruct (fs_extractSparseVector _ _) as [q|m2];
      [| injection Hres as ->; by left].
    right. exists q. split; [done |].
    destruct (la_multiplyT C q) as [sim|m3]; [done | by injection Hres as ->].
  - intros [H|(r & Hr & [H|(C & HC & [H|(q & Hq & H)])])].
    + by rewrite H.
    + by rewrite Hr, H.
    + by rewrite Hr, HC, H.
    + by rewrite Hr, HC, Hq, H.
Qed.

(** C6, as the code has it: [search] does not check [maxCount].  With a
    negative [maxCount] the loop body never runs: the result is the empty
    record set with no weights, unless a library call threw, and then it is
    that call's message. *)
Theorem search_negative_maxCount w query maxCount minSim :
  (maxCount < 0)%Z →
  (search query maxCount minSim w).1 = Return (Pair [] []) ∨
  ∃ message, library_throws w query message ∧
    (search query maxCount minSim w).1 = Return (ErrorObject message).
Proof.
  intros Hneg.
  destruct (search_returns w query maxCount minSim) as [[ids weights|message] Hres].
  - left. rewrite Hres. simpl. rewrite search_eq in Hres.
    injection Hres as Hres.
    destruct (store_newRecord (base w) query) as [[queryRecord|]|]; [| | done].
    + destruct (fs_extractSparseMatrix _ _ _) as [C|]; [| done].
      destruct (fs_extractSparseVector _ _) as [q|]; [| done].
      destruct (la_multiplyT C q) as [sim|]; [| done].
      rewrite emitted_negative in Hres by done. by rewrite <- Hres.
    + by rewrite <- Hres.
  - right. exists message. split; [| by rewrite Hres].
    apply (search_error_iff w query maxCount minSim). by rewrite Hres.
Qed.

(** C4, as the code has it: over an empty corpus [search] returns no
    document, whatever [maxCount] and [minSim] are.  When [multiplyT]
    returns on the empty matrix the result is the empty record set with no
    weights; when a library call throws, the result is the error object with
    that call's message. *)
Theorem search_empty_corpus w query maxCount minSim :
  fs_extractSparseMatrix (featureSpace w) (base w) (emails w) = Return [] →
  (∀ q sim, features w query [] q → la_multiplyT [] q = Return sim →
     search query maxCount minSim w = (Return (Pair [] []), w)) ∧
  ((search query maxCount minSim w).1 = Return (Pair [] []) ∨
   ∃ message, library_throws w query message ∧
     (search query maxCount minSim w).1 = Return (ErrorObject message)).
Proof.
  intros HC.
  assert (∀ q sim, la_multiplyT [] q = Return sim →
            emitted (la_sortPerm sim false) minSim maxCount = []) as Hnone.
  { intros q sim Hsim. apply multiplyT_value in Hsim as ->.
    assert (ranking (la_sortPerm (transposed_product [] q) false) = []) as Hnil.
    { apply length_zero_iff_nil. by rewrite ranking_length. }
    unfold emitted. by rewrite Hnil, take_nil. }
  split.
  - intros q sim (r & Hr & _ & Hq) Hsim.
    rewrite search_eq, Hr, HC, Hq, Hsim. by rewrite (Hnone q sim Hsim).
  - destruct (search_returns w query maxCount minSim) as [[ids weights|message] Hres].
    + left. rewrite Hres. simpl. rewrite search_eq, HC in Hres.
      injection Hres as Hres.
      destruct (store_newRecord (base w) query) as [[queryRecord|]|]; [| | done].
      * destruct (fs_extractSparseVector _ _) as [q|]; [| done].
        destruct (la_multiplyT [] q) as [sim|] eqn:Hsim; [| done].
        rewrite (Hnone q sim Hsim) in Hres. by rewrite <- Hres.
      * by rewrite <- Hres.
    + right. exists message. split; [| by rewrite Hres].
      apply (search_error_iff w query maxCount minSim). by rewrite Hres.
Qed.

(** C10: the record ids and the weights that [search] returns have the same
    length, and the weight at each position is the score of the document
    whose id is at that position. *)
Theorem search_ids_weights_aligned w query maxCount minSim C q ids weights :
  features w query C q →
  (search query maxCount minSim w).1 = Return (Pair ids weights) →
  length ids = length weights ∧
  ∀ i id, ids !! i = Some id →
    ∃ doc, C !! id = Some doc ∧ weights !! i = Some (dot doc q).
Proof.
  intros Hf Hs. destruct (search_pair_inv _ _ _ _ _ _ _ _ Hf Hs) as (_ & -> & ->).
  split; [by rewrite !length_fmap |].
  intros i id Hi. apply list_lookup_fmap_Some_1 in Hi as (p & -> & Hp).
  rewrite list_lookup_fmap, Hp. simpl.
  apply emitted_lookup in Hp as (Hp & _ & _).
  pose proof (ranking_scores (transposed_product C q) false) as Hsc.
  eapply Forall_lookup_1 in Hsc; [| exact Hp]. simpl in Hsc.
  unfold transposed_product in Hsc.
  apply list_lookup_fmap_Some_1 in Hsc as (doc & Hdot & Hdoc).
  exists doc. split; [done | by rewrite Hdot].
Qed.
End Search.

(** ** The walk and the filter *)

(** C8: on a ranking whose scores never increase, the loop of [search] (emit
    from the top, stop at the first score below [minSim] or after
    [maxCount] entries) yields the ranking filtered to the scores that reach
    [minSim] and cut to its first [maxCount] entries. *)
Theorem walk_eq_filter_then_truncate (sim : Vector) (sorted : list (nat * Q))
    (minSim : Q) (maxCount : Z) :
  Forall (λ p, sim !! p.1 = Some p.2) sorted →
  StronglySorted (λ a b, b.2 <= a.2)%Q sorted →
  search_loop sim (sorted.*1) minSim
    (Z.to_nat (clamp maxCount (sorted.*1))) 0 [] [] =
  Return ((filter_then_truncate sorted minSim maxCount).*1,
          (filter_then_truncate sorted minSim maxCount).*2).
Proof.
  intros Hsim Hs.
  rewrite search_loop_run; [| done |].
  - rewrite drop_0, clamp_take by (by rewrite length_fmap). simpl.
    by rewrite take_while_take_filter.
  - pose proof (clamp_le maxCount (sorted.*1)) as Hle.
    rewrite length_fmap in Hle. lia.
Qed.

(** * The model at work *)

Lemma lib_plain_laws : QMinerLaws lib_plain.
Proof. apply demo_library_laws. Qed.

Lemma lib_checked_laws : QMinerLaws lib_checked.
Proof. apply demo_library_laws. Qed.

(** Loading the examples changes the globals: the script does have state. *)
Example setup_changes_globals :
  (@setup lib_plain demo_examples bare_world).2 ≠ bare_world.
Proof. vm_compute. discriminate. Qed.

(** The scenario of the specification, with the third document scaled to
    norm one: documents (1,0,0), (0,1,0) and (3/5,4/5,0), query (1,0,0),
    [maxCount = 2] and [minSim = 1/10]. *)
Example search_scenario :
  (@search lib_plain "learning french" 2 (1 # 10) plain_world).1 =
  Return (Pair [0; 2] [1; 15 # 25]%Q).
Proof. vm_compute. reflexivity. Qed.

Lemma plain_features :
  @features lib_plain plain_world "learning french" [unit_x; unit_y; diagonal] unit_x.
Proof. exists (mail "learning french"). repeat split; reflexivity. Defined.


Lemma search_threshold_inclusive_witness :
  Forall (λ s, 15 # 25 <= s)%Q [1; 15 # 25]%Q ∧
  ([0; 2] !! 1 = Some 2 ∧ [1; 15 # 25]%Q !! 1 = Some (15 # 25)%Q).
Proof.
  destruct (@search_threshold_inclusive lib_plain lib_plain_laws plain_world
              "learning french" 2 (15 # 25) [unit_x; unit_y; diagonal] unit_x
              [0; 2] [1; 15 # 25]%Q plain_features) as [Hall Hin];
    [vm_compute; reflexivity |].
  split; [exact Hall |].
  apply (Hin 1 2 (15 # 25)%Q);
    [lia | vm_compute; reflexivity | vm_compute; reflexivity | vm_compute; discriminate].
Defined.

Lemma search_sorted_descending_witness : descending [1; 1; 0]%Q.
Proof.
  apply (@search_sorted_descending lib_checked lib_checked_laws checked_tied_world
           "learning french" 5 0 [1; 0; 2] [1; 1; 0]%Q).
  vm_compute. reflexivity.
Defined.

Lemma search_empty_corpus_witness :
  (∀ q sim, @features lib_plain bare_world "learning french" [] q →
     la_multiplyT (QMiner := lib_plain) [] q = Return sim →
     @search lib_plain "learning french" 7 (1 # 2) bare_world =
     (Return (Pair [] []), bare_world)) ∧
  ((@search lib_plain "learning french" 7 (1 # 2) bare_world).1 =
   Return (Pair [] []) ∨
   ∃ message, @library_throws lib_plain bare_world "learning french" message ∧
     (@search lib_plain "learning french" 7 (1 # 2) bare_world).1 =
     Return (ErrorObject message)).
Proof.
  apply (@search_empty_corpus lib_plain lib_plain_laws bare_world
           "learning french" 7 (1 # 2)).
  reflexivity.
Defined.

Lemma search_negative_maxCount_witness :
  (-3 < 0)%Z ∧
  ((@search lib_plain "learning french" (-3) 0 plain_world).1 = Return (Pair [] []) ∨
   ∃ message, @library_throws lib_plain plain_world "learning french" message ∧
     (@search lib_plain "learning french" (-3) 0 plain_world).1 =
     Return (ErrorObject message)).
Proof.
  split; [lia |].
  apply (@search_negative_maxCount lib_plain lib_plain_laws plain_world
           "learning french" (-3) 0).
  lia.
Defined.

Lemma search_ids_weights_aligned_witness :
  length [0; 2] = length [1; 15 # 25]%Q ∧
  ∀ i id, [0; 2] !! i = Some id →
    ∃ doc, [unit_x; unit_y; diagonal] !! id = Some doc ∧
           [1; 15 # 25]%Q !! i = Some (dot doc unit_x).
Proof.
  apply (@search_ids_weights_aligned lib_plain lib_plain_laws plain_world
           "learning french" 2 (1 # 10) [unit_x; unit_y; diagonal] unit_x
           [0; 2] [1; 15 # 25]%Q plain_features).
  vm_compute. reflexivity.
Defined.

Lemma walk_eq_filter_then_truncate_witness :
  search_loop [1; 0; 3 # 5]%Q [0; 2; 1] (1 # 10)
    (Z.to_nat (clamp 5 [0; 2; 1])) 0 [] [] =
  Return ([0; 2], [1; 3 # 5]%Q).
Proof.
  apply (walk_eq_filter_then_truncate [1; 0; 3 # 5]%Q
           [(0, 1%Q); (2, 3 # 5); (1, 0%Q)] (1 # 10) 5).
  - repeat constructor.
  - repeat constructor; simpl; lra.
Defined.

(** C3, refuted as stated: with a [sortPerm] that sorts (value, position)
    pairs, the two documents of score 1 come back as 1 then 0. *)
Lemma search_ties_not_ascending :
  (@search lib_checked "learning french" 5 0 checked_tied_world).1 =
  Return (Pair [1; 0; 2] [1; 1; 0]%Q) ∧
  ¬ ties_ascending [1; 0; 2] [1; 1; 0]%Q.
Proof.
  split; [vm_compute; reflexivity |].
  intros H. specialize (H 0 1 1 0 1%Q 1%Q).
  assert (1 < 0) as Hlt; [| lia].
  apply H; (lia || reflexivity).
Qed.

(** C6, refuted as stated: a negative [maxCount] gives the empty result,
    not an error. *)
Lemma search_negative_maxCount_returns :
  (@search lib_plain "learning french" (-1) 0 plain_world).1 =
  Return (Pair [] []) ∧
  (@search lib_checked "learning french" (-1) 0 checked_tied_world).1 =
  Return (Pair [] []).
Proof. split; vm_compute; reflexivity. Qed.

(** C4, refuted as stated: the store is empty, the feature matrix has no
    column, [multiplyT] refuses it, and [search] returns the error object
    where the claim has the empty result. *)
Lemma search_empty_corpus_error :
  @features lib_checked checked_bare_world "learning french" [] unit_x ∧
  ∃ message,
    (@search lib_checked "learning french" 100 (5 # 100) checked_bare_world).1 =
    Return (ErrorObject message).
Proof.
  split.
  - exists (mail "learning french"). repeat split; reflexivity.
  - eexists. vm_compute. reflexivity.
Qed.

(** * Further properties *)

(** ** More on prefixes *)

Section TakeWhileMore.
Context {A : Type}.
Implicit Types (f g : A → bool) (l : list A).

Lemma take_while_take f l : take_while f l = take (length (take_while f l)) l.
Proof.
  induction l as [|x l IH]; simpl; [done |].
  destruct (f x); simpl; [by rewrite <- IH | done].
Qed.

(** Where the prefix ends short of the list, the next element fails. *)
Lemma take_while_stop f l :
  length (take_while f l) < length l →
  ∃ x, l !! length (take_while f l) = Some x ∧ f x = false.
Proof.
  induction l as [|x l IH]; simpl; [lia |].
  destruct (f x) eqn:E; simpl; [| eauto].
  intros Hlt. apply IH. lia.
Qed.

Lemma take_while_all f l : Forall (λ x, f x = true) l → take_while f l = l.
Proof. induction 1 as [|x l Hx _ IH]; simpl; [done |]. by rewrite Hx, IH. Qed.

Lemma take_while_take_prefix f l n m :
  n ≤ m → take_while f (take n l) `prefix_of` take_while f (take m l).
Proof.
  revert n m. induction l as [|x l IH]; intros n m Hnm.
  - rewrite !take_nil. done.
  - destruct n as [|n]; [apply prefix_nil |].
    destruct m as [|m]; [lia |]. simpl.
    destruct (f x); [| done]. apply prefix_cons, IH. lia.
Qed.

Lemma take_while_weaken_prefix f g l :
  (∀ x, f x = true → g x = true) →
  take_while f l `prefix_of` take_while g l.
Proof.
  intros Hfg. induction l as [|x l IH]; simpl; [done |].
  destruct (f x) eqn:E; [| apply prefix_nil].
  rewrite (Hfg x E). by apply prefix_cons.
Qed.
End TakeWhileMore.

Lemma prefix_fmap {A B : Type} (f : A → B) (l1 l2 : list A) :
  l1 `prefix_of` l2 → f <$> l1 `prefix_of` f <$> l2.
Proof. intros [k ->]. exists (f <$> k). apply fmap_app. Qed.

Lemma clamp_to_nat maxCount (perm : IntVector) :
  Z.to_nat (clamp maxCount perm) = Z.to_nat maxCount `min` length perm.
Proof. unfold clamp. destruct (Z.ltb_spec (Z.of_nat (length perm)) maxCount); lia. Qed.

(** ** More on what [search] emits *)

Section EmittedMore.
Context {L : QMiner} {HL : QMinerLaws L}.
Implicit Types (sim : Vector) (minSim : Q) (maxCount : Z).

(** The emitted entries are the top of the ranking. *)
Lemma emitted_take sim minSim maxCount :
  emitted (la_sortPerm sim false) minSim maxCount =
  take (length (emitted (la_sortPerm sim false) minSim maxCount))
    (ranking (la_sortPerm sim false)).
Proof.
  unfold emitted at 1. rewrite take_while_take, take_take. fold (emitted (la_sortPerm sim false) minSim maxCount).
  f_equal.
  pose proof (take_while_length (kept minSim)
    (take (Z.to_nat (clamp maxCount (perm (la_sortPerm sim false))))
       (ranking (la_sortPerm sim false)))) as Hlen.
  rewrite length_take in Hlen. unfold emitted. lia.
Qed.

Lemma emitted_lookup_lt sim minSim maxCount k :
  k < length (emitted (la_sortPerm sim false) minSim maxCount) →
  emitted (la_sortPerm sim false) minSim maxCount !! k =
  ranking (la_sortPerm sim false) !! k.
Proof. intros Hk. rewrite emitted_take. by apply lookup_take_lt. Qed.

(** Every position of the similarity vector has a rank. *)
Lemma ranking_rank sim asc id s :
  sim !! id = Some s → ∃ j, ranking (la_sortPerm sim asc) !! j = Some (id, s).
Proof.
  intros Hs.
  assert (id ∈ perm (la_sortPerm sim asc)) as Hin.
  { rewrite (sortPerm_perm sim asc). apply elem_of_seq.
    apply lookup_lt_Some in Hs. lia. }
  apply list_elem_of_lookup in Hin as [j Hj]. exists j.
  destruct (lookup_lt_is_Some_2 (ranking (la_sortPerm sim asc)) j) as [[i x] Hp].
  { rewrite <- (length_fmap fst), ranking_fst. by eapply lookup_lt_Some. }
  pose proof (ranking_scores sim asc) as Hsc.
  eapply Forall_lookup_1 in Hsc; [| exact Hp]. simpl in Hsc.
  apply lookup_zip_Some in Hp as Hp'. destruct Hp' as [Hi _].
  assert (Some i = Some id) as [= ->] by (by etransitivity; [symmetry; exact Hi |]).
  assert (Some x = Some s) as [= ->] by (by etransitivity; [symmetry; exact Hsc |]).
  done.
Qed.

Lemma ranking_NoDup sim asc : NoDup (ranking (la_sortPerm sim asc)).*1.
Proof. rewrite ranking_fst, (sortPerm_perm sim asc). apply NoDup_seq. Qed.

(** A position that was not emitted ranks after everything emitted. *)
Lemma not_emitted_rank sim minSim maxCount id s j :
  id ∉ (emitted (la_sortPerm sim false) minSim maxCount).*1 →
  ranking (la_sortPerm sim false) !! j = Some (id, s) →
  length (emitted (la_sortPerm sim false) minSim maxCount) ≤ j.
Proof.
  intros Hnot Hj. destruct (decide (length (emitted (la_sortPerm sim false) minSim maxCount) ≤ j)) as [|Hlt]; [done |].
  exfalso. apply Hnot.
  apply (list_elem_of_fmap_2' fst _ (id, s)); [| done].
  apply list_elem_of_lookup. exists j.
  rewrite emitted_lookup_lt by lia. done.
Qed.
End EmittedMore.

(** [sortPerm] only rearranges the values. *)
Lemma filter_length_le {A : Type} (f : A → bool) (l : list A) :
  length (List.filter f l) ≤ length l.
Proof. induction l as [|x l IH]; simpl; [lia |]. destruct (f x); simpl; lia. Qed.

Lemma filter_length_Permutation {A : Type} (f : A → bool) (l k : list A) :
  l ≡ₚ k → length (List.filter f l) = length (List.filter f k).
Proof.
  induction 1 as [|x l k _ IH|x y l|l k m _ IH1 _ IH2]; simpl.
  - done.
  - destruct (f x); simpl; lia.
  - destruct (f x), (f y); simpl; lia.
  - lia.
Qed.

Lemma filter_length_fmap {A B : Type} (f : B → bool) (g : A → B) (l : list A) :
  length (List.filter (λ x, f (g x)) l) = length (List.filter f (g <$> l)).
Proof.
  induction l as [|x l IH]; [done |].
  rewrite fmap_cons. simpl. destruct (f (g x)); simpl; lia.
Qed.

Section SortValues.
Context {L : QMiner} {HL : QMinerLaws L}.

Lemma sortPerm_vec_Permutation (sim : Vector) asc : vec (la_sortPerm sim asc) ≡ₚ sim.
Proof.
  assert (vec (la_sortPerm sim asc) =
          (λ i, default 0%Q (sim !! i)) <$> perm (la_sortPerm sim asc)) as ->.
  { pose proof (sortPerm_vec sim asc) as H.
    induction H as [|i x l k Hi _ IH]; simpl; [done |]. by rewrite Hi, IH. }
  rewrite (sortPerm_perm sim asc).
  assert ((λ i, default 0%Q (sim !! i)) <$> seq 0 (length sim) = sim) as ->; [| done].
  apply list_eq. intros i. rewrite list_lookup_fmap.
  destruct (sim !! i) as [x|] eqn:Hx.
  - pose proof (lookup_lt_Some _ _ _ Hx) as Hlt.
    rewrite (proj2 (lookup_seq 0 (length sim) i i)) by (split; lia).
    simpl. by rewrite Hx.
  - apply lookup_ge_None in Hx. rewrite (lookup_ge_None_2 (seq 0 (length sim)) i); [done |].
    rewrite length_seq. lia.
Qed.

(** The entries of the ranking that reach [minSim] are as many as the
    scores that do. *)
Lemma reached_count (sim : Vector) (minSim : Q) :
  length (List.filter (λ p : nat * Q, Qle_bool minSim p.2) (ranking (la_sortPerm sim false))) =
  length (List.filter (λ s, Qle_bool minSim s) sim).
Proof.
  rewrite (filter_length_fmap (λ s, Qle_bool minSim s) snd), ranking_snd.
  apply filter_length_Permutation, sortPerm_vec_Permutation.
Qed.
End SortValues.

(** ** The result as a top-k answer *)

Section SearchMore.
Context {L : QMiner} {HL : QMinerLaws L}.
Implicit Types (w : World) (query : string) (minSim : Q) (maxCount : Z).

(** X1: the record ids [search] returns are pairwise distinct. *)
Theorem search_ids_distinct w query maxCount minSim ids weights :
  (search query maxCount minSim w).1 = Return (Pair ids weights) →
  NoDup ids.
Proof.
  rewrite search_eq. simpl.
  destruct (store_newRecord (base w) query) as [[queryRecord|]|]; [| | done].
  - destruct (fs_extractSparseMatrix _ _ _) as [C|]; [| done].
    destruct (fs_extractSparseVector _ _) as [q|]; [| done].
    destruct (la_multiplyT C q) as [sim|]; [| done].
    intros [= <- <-]. rewrite emitted_take, fmap_take.
    pose proof (ranking_NoDup sim false) as Hnd.
    rewrite <- (take_drop (length (emitted (la_sortPerm sim false) minSim maxCount))
                  (ranking (la_sortPerm sim false)).*1) in Hnd.
    by apply NoDup_app in Hnd as [? _].
  - intros [= <- <-]. constructor.
Qed.

(** X2: the result is the top of the ranking [sortPerm] produced: the
    record id and the weight at position [i] are the entries of rank [i]. *)
Theorem search_top_of_ranking w query maxCount minSim C q ids weights :
  features w query C q →
  (search query maxCount minSim w).1 = Return (Pair ids weights) →
  ids = take (length ids) (perm (la_sortPerm (transposed_product C q) false)) ∧
  weights = take (length ids) (vec (la_sortPerm (transposed_product C q) false)).
Proof.
  intros Hf Hs. destruct (search_pair_inv _ _ _ _ _ _ _ _ Hf Hs) as (_ & -> & ->).
  rewrite length_fmap.
  rewrite <- (ranking_fst (transposed_product C q) false).
  rewrite <- (ranking_snd (transposed_product C q) false).
  rewrite <- !fmap_take, <- emitted_take. done.
Qed.

(** X3: no document that was left out scores higher than a document that
    was returned. *)
Theorem search_returns_best w query maxCount minSim C q ids weights :
  features w query C q →
  (search query maxCount minSim w).1 = Return (Pair ids weights) →
  ∀ id id' s s',
    id ∈ ids → id' ∉ ids →
    transposed_product C q !! id = Some s →
    transposed_product C q !! id' = Some s' →
    (s' <= s)%Q.
Proof.
  intros Hf Hs. destruct (search_pair_inv _ _ _ _ _ _ _ _ Hf Hs) as (_ & -> & _).
  set (sim := transposed_product C q).
  intros id id' s s' Hin Hout Hid Hid'.
  apply list_elem_of_fmap_1 in Hin as ([i x] & -> & Hin).
  apply list_elem_of_lookup in Hin as [k Hk].
  pose proof (lookup_lt_Some _ _ _ Hk) as Hlt.
  apply emitted_lookup in Hk as (Hk & _ & _).
  pose proof (ranking_scores sim false) as Hsc.
  eapply Forall_lookup_1 in Hsc; [| exact Hk]. simpl in Hsc, Hid.
  assert (Some x = Some s) as [= ->] by (by etransitivity; [symmetry; exact Hsc |]).
  destruct (ranking_rank sim false id' s' Hid') as [j Hj].
  pose proof (not_emitted_rank sim minSim maxCount id' s' j Hout Hj) as Hle.
  apply (StronglySorted_lookup (λ a b, b.2 <= a.2)%Q
           (ranking (la_sortPerm sim false)) k j (i, s) (id', s'));
    [apply ranking_descending | lia | done | done].
Qed.

(** X4: when [search] returns fewer than [min(maxCount, |C|)] documents,
    every document it left out scores strictly below [minSim]. *)
Theorem search_short_below_threshold w query maxCount minSim C q ids weights :
  features w query C q →
  (search query maxCount minSim w).1 = Return (Pair ids weights) →
  (Z.of_nat (length ids) < Z.min maxCount (Z.of_nat (length C)))%Z →
  ∀ id' s',
    id' ∉ ids → transposed_product C q !! id' = Some s' → (s' < minSim)%Q.
Proof.
  intros Hf Hs. destruct (search_pair_inv _ _ _ _ _ _ _ _ Hf Hs) as (_ & -> & _).
  set (sim := transposed_product C q).
  rewrite length_fmap. intros Hshort id' s' Hout Hid'.
  assert (length sim = length C) as Hsim by apply length_map.
  destruct (take_while_stop (kept minSim)
    (take (Z.to_nat (clamp maxCount (perm (la_sortPerm sim false))))
       (ranking (la_sortPerm sim false)))) as (x & Hx & Hfx).
  { fold (emitted (la_sortPerm sim false) minSim maxCount).
    rewrite length_take, ranking_length, clamp_to_nat.
    destruct (sort_lengths sim false) as [-> _]. lia. }
  fold (emitted (la_sortPerm sim false) minSim maxCount) in Hx.
  apply lookup_take_Some in Hx as [Hx _].
  unfold kept in Hfx. apply negb_false_iff, num_lt_true in Hfx.
  destruct (ranking_rank sim false id' s' Hid') as [j Hj].
  pose proof (not_emitted_rank sim minSim maxCount id' s' j Hout Hj) as Hle.
  destruct (decide (j = length (emitted (la_sortPerm sim false) minSim maxCount)))
    as [->|Hne].
  - assert (Some x = Some (id', s')) as [= ->] by (by etransitivity; [symmetry; exact Hx |]).
    done.
  - assert (s' <= x.2)%Q; [| lra].
    apply (StronglySorted_lookup (λ a b, b.2 <= a.2)%Q
             (ranking (la_sortPerm sim false))
             (length (emitted (la_sortPerm sim false) minSim maxCount)) j x (id', s'));
      [apply ranking_descending | lia | done | done].
Qed.

(** X5: for a [maxCount] that is not negative, [search] returns exactly
    [min(maxCount, r)] documents, where [r] is the number of documents of
    the corpus whose score reaches [minSim]. *)
Theorem search_count w query maxCount minSim C q ids weights :
  features w query C q →
  (search query maxCount minSim w).1 = Return (Pair ids weights) →
  (0 ≤ maxCount)%Z →
  Z.of_nat (length ids) =
  Z.min maxCount
    (Z.of_nat (length (List.filter (λ s, Qle_bool minSim s) (transposed_product C q)))).
Proof.
  intros Hf Hs. destruct (search_pair_inv _ _ _ _ _ _ _ _ Hf Hs) as (_ & -> & _).
  set (sim := transposed_product C q).
  intros H0. rewrite length_fmap.
  unfold emitted. rewrite take_while_take_filter by apply ranking_descending.
  rewrite length_take, clamp_to_nat, <- (reached_count sim minSim).
  pose proof (filter_length_le (λ p : nat * Q, Qle_bool minSim p.2)
                (ranking (la_sortPerm sim false))) as Hle.
  rewrite <- (length_fmap fst (ranking (la_sortPerm sim false))), ranking_fst in Hle.
  lia.
Qed.

(** X6: with [maxCount] at least the corpus size, [search] returns exactly
    the documents whose score reaches [minSim]. *)
Theorem search_all_above_threshold w query maxCount minSim C q ids weights :
  features w query C q →
  (search query maxCount minSim w).1 = Return (Pair ids weights) →
  (Z.of_nat (length C) ≤ maxCount)%Z →
  ∀ id, id ∈ ids ↔ ∃ s, transposed_product C q !! id = Some s ∧ (minSim <= s)%Q.
Proof.
  intros Hf Hs. destruct (search_pair_inv _ _ _ _ _ _ _ _ Hf Hs) as (_ & -> & _).
  set (sim := transposed_product C q).
  intros Hbig id.
  assert (length sim = length C) as Hsim by apply length_map.
  split.
  - intros Hin. apply list_elem_of_fmap_1 in Hin as ([i x] & -> & Hin).
    apply list_elem_of_lookup in Hin as [k Hk].
    apply emitted_lookup in Hk as (Hk & _ & Hmin).
    pose proof (ranking_scores sim false) as Hsc.
    eapply Forall_lookup_1 in Hsc; [| exact Hk]. eauto.
  - intros (s & Hid & Hmin).
    destruct (ranking_rank sim false id s Hid) as [j Hj].
    apply (list_elem_of_fmap_2' fst _ (id, s)); [| done].
    apply list_elem_of_lookup. exists j.
    apply emitted_included; [| done | done].
    apply lookup_lt_Some in Hj. rewrite ranking_length in Hj. lia.
Qed.
End SearchMore.

(** ** How the result moves with [maxCount] and [minSim] *)

Section SearchMonotone.
Context {L : QMiner} {HL : QMinerLaws L}.
Implicit Types (w : World) (query : string) (minSim : Q) (maxCount : Z).

Lemma emitted_maxCount_prefix (sim : Vector) minSim maxCount1 maxCount2 :
  (maxCount1 ≤ maxCount2)%Z →
  emitted (la_sortPerm sim false) minSim maxCount1
    `prefix_of` emitted (la_sortPerm sim false) minSim maxCount2.
Proof.
  intros Hle. unfold emitted. apply take_while_take_prefix.
  rewrite !clamp_to_nat. lia.
Qed.

Lemma emitted_minSim_prefix (sim : Vector) minSim1 minSim2 maxCount :
  (minSim1 <= minSim2)%Q →
  emitted (la_sortPerm sim false) minSim2 maxCount
    `prefix_of` emitted (la_sortPerm sim false) minSim1 maxCount.
Proof.
  intros Hle. unfold emitted. apply take_while_weaken_prefix.
  intros x. rewrite !kept_spec. lra.
Qed.

(** X7: asking for fewer results gives a prefix of the longer answer. *)
Theorem search_maxCount_prefix w query minSim maxCount1 maxCount2
    ids1 weights1 ids2 weights2 :
  (maxCount1 ≤ maxCount2)%Z →
  (search query maxCount1 minSim w).1 = Return (Pair ids1 weights1) →
  (search query maxCount2 minSim w).1 = Return (Pair ids2 weights2) →
  ids1 `prefix_of` ids2 ∧ weights1 `prefix_of` weights2.
Proof.
  intros Hle. rewrite !search_eq. simpl.
  destruct (store_newRecord (base w) query) as [[queryRecord|]|]; [| | done].
  - destruct (fs_extractSparseMatrix _ _ _) as [C|]; [| done].
    destruct (fs_extractSparseVector _ _) as [q|]; [| done].
    destruct (la_multiplyT C q) as [sim|]; [| done].
    intros [= <- <-] [= <- <-].
    split; apply prefix_fmap, emitted_maxCount_prefix, Hle.
  - intros [= <- <-] [= <- <-]. done.
Qed.

(** X8: raising the threshold gives a prefix of the answer for the lower
    threshold. *)
Theorem search_minSim_prefix w query maxCount minSim1 minSim2
    ids1 weights1 ids2 weights2 :
  (minSim1 <= minSim2)%Q →
  (search query maxCount minSim1 w).1 = Return (Pair ids1 weights1) →
  (search query maxCount minSim2 w).1 = Return (Pair ids2 weights2) →
  ids2 `prefix_of` ids1 ∧ weights2 `prefix_of` weights1.
Proof.
  intros Hle. rewrite !search_eq. simpl.
  destruct (store_newRecord (base w) query) as [[queryRecord|]|]; [| | done].
  - destruct (fs_extractSparseMatrix _ _ _) as [C|]; [| done].
    destruct (fs_extractSparseVector _ _) as [q|]; [| done].
    destruct (la_multiplyT C q) as [sim|]; [| done].
    intros [= <- <-] [= <- <-].
    split; apply prefix_fmap, emitted_minSim_prefix, Hle.
  - intros [= <- <-] [= <- <-]. done.
Qed.

(** X9: every [maxCount] at or above the corpus size gives the result of
    [maxCount = |C|]. *)
Theorem search_maxCount_saturates w query maxCount minSim C :
  fs_extractSparseMatrix (featureSpace w) (base w) (emails w) = Return C →
  (Z.of_nat (length C) ≤ maxCount)%Z →
  search query maxCount minSim w =
  search query (Z.of_nat (length C)) minSim w.
Proof.
  intros HC Hbig. rewrite !search_eq, HC.
  destruct (store_newRecord (base w) query) as [[queryRecord|]|]; [| done | done].
  destruct (fs_extractSparseVector _ _) as [q|]; [| done].
  destruct (la_multiplyT C q) as [sim|] eqn:Hsim; [| done].
  apply multiplyT_value in Hsim as ->.
  assert (length (transposed_product C q) = length C) as Hlen by apply length_map.
  unfold emitted. rewrite !clamp_to_nat.
  destruct (sort_lengths (transposed_product C q) false) as [-> _].
  rewrite Hlen.
  replace (Z.to_nat maxCount `min` length C) with
    (Z.to_nat (Z.of_nat (length C)) `min` length C) by lia.
  done.
Qed.
End SearchMonotone.

(** ** The application *)

Section ApplicationFacts.
Context {L : QMiner} {HL : QMinerLaws L}.
Context {Shown : Type} (rs_at : RecordSet → nat → Exc Shown).

Lemma report_loop_error message steps :
  report_loop rs_at (ErrorObject message) (S steps) 0 = ([], Uncaught TypeError).
Proof. done. Qed.

(** The loop closes normally exactly when it could read [rs[1]]. *)
Lemma report_loop_completed records weights steps i :
  (report_loop rs_at (Pair records weights) (S steps) i).2 = Completed ↔
  ∃ rec, rs_at records 1 = Return rec.
Proof.
  revert i. induction steps as [|steps IH]; intros i.
  - simpl. destruct (rs_at records 1) as [rec|message]; simpl.
    + split; [eauto | done].
    + split; [done | intros [? ?]; done].
  - specialize (IH (S i)). remember (S steps) as n.
    simpl. destruct (rs_at records 1) as [rec|message] eqn:Hrs.
    + destruct (report_loop rs_at (Pair records weights) n (S i)) as [trace outcome].
      simpl in *. rewrite IH. done.
    + simpl. split; [done | intros [? ?]; done].
Qed.

Lemma report_loop_no_close similarEmails steps i :
  CloseBase ∉ (report_loop rs_at similarEmails steps i).1.
Proof.
  revert i. induction steps as [|steps IH]; intros i; simpl.
  - apply not_elem_of_nil.
  - destruct similarEmails as [records weights|message]; simpl;
      [| apply not_elem_of_nil].
    destruct (rs_at records 1) as [rec|message]; simpl.
    + specialize (IH (S i)).
      destruct (report_loop rs_at (Pair records weights) steps (S i)) as [trace outcome].
      simpl in *. rewrite !not_elem_of_cons. done.
    + rewrite not_elem_of_cons. split; [done | apply not_elem_of_nil].
Qed.

(** X10: when a library call inside [search] throws, the script goes on
    with the error object as if it were the result: its first read
    [similarEmails[1][0]] throws a [TypeError] that nothing catches, so
    nothing is printed and [base.close()] is never reached. *)
Theorem application_dies_on_search_error (w : World) message :
  library_throws w "learning french" message →
  application rs_at w = ([], Uncaught TypeError, w).
Proof.
  intros Hthrow. unfold application, search_default.
  apply (search_error_iff w "learning french" 100 (5 # 100) message) in Hthrow.
  destruct (search_returns w "learning french" 100 (5 # 100)) as [result Hres].
  rewrite Hres in Hthrow |- *. cbn [fst] in Hthrow. injection Hthrow as ->.
  by rewrite report_loop_error.
Qed.

(** X11: the script reaches [base.close()] exactly when [search] returned
    its pair and the library could read the record at index 1 of the
    returned record set. *)
Theorem application_closes_iff (w : World) :
  CloseBase ∈ (application rs_at w).1.1 ↔
  ∃ ids weights rec,
    (search_default "learning french" w).1 = Return (Pair ids weights) ∧
    rs_at ids 1 = Return rec.
Proof.
  unfold application, search_default.
  destruct (search_returns w "learning french" 100 (5 # 100)) as [result Hres].
  rewrite Hres. cbn [fst snd].
  pose proof (report_loop_no_close result 5 0) as Hno.
  destruct result as [ids weights|message].
  - pose proof (report_loop_completed ids weights 4 0) as Hdone.
    destruct (report_loop rs_at (Pair ids weights) 5 0) as [trace [|error]];
      cbn [fst snd] in *.
    + split.
      * intros _. destruct (proj1 Hdone eq_refl) as [rec Hrec]. eauto.
      * intros _. apply elem_of_app. right. by apply list_elem_of_singleton.
    + split; [done |].
      intros (ids' & weights' & rec & [= <- <-] & Hrec).
      assert (Uncaught error = Completed) as Habs; [| done].
      apply Hdone. eauto.
  - rewrite report_loop_error. cbn [fst snd].
    split; [intros H; by apply not_elem_of_nil in H |].
    intros (? & ? & ? & ? & _). done.
Qed.
End ApplicationFacts.

Section ApplicationTrace.
Context {L : QMiner} {HL : QMinerLaws L}.
Context {Shown : Type} (rs_at : RecordSet → nat → Exc Shown).

Lemma report_loop_trace records weights rec steps i :
  rs_at records 1 = Return rec →
  report_loop rs_at (Pair records weights) steps i =
  (flat_map (λ k, [LogSimilarity (weights !! k); LogRecord rec]) (seq i steps),
   Completed).
Proof.
  intros Hrec. revert i. induction steps as [|steps IH]; intros i; simpl; [done |].
  by rewrite Hrec, IH.
Qed.

(** X12: when [search] returned its pair and the record at index 1 can be
    read, the script prints five similarity lines whatever the number of
    results (line [i] shows [weights[i]], or [undefined] past the end), each
    followed by the same record, the one at index 1, and then closes the
    database. *)
Theorem application_trace (w : World) ids weights rec :
  (search_default "learning french" w).1 = Return (Pair ids weights) →
  rs_at ids 1 = Return rec →
  application rs_at w =
  (flat_map (λ k, [LogSimilarity (weights !! k); LogRecord rec]) (seq 0 5)
     ++ [CloseBase], Completed, w).
Proof.
  intros Hs Hrec. unfold application, search_default in *.
  destruct (search_returns w "learning french" 100 (5 # 100)) as [result Hres].
  rewrite Hres in Hs |- *. cbn [fst] in Hs. injection Hs as ->.
  by rewrite (report_loop_trace ids weights rec 5 0 Hrec).
Qed.
End ApplicationTrace.

(** ** No read outside the vectors *)

(** X14: whatever [maxCount] is (above the corpus size, or negative), the
    loop of [search] reads [sort.perm] and [sim] only inside their bounds:
    it returns, and no index makes it throw. *)
Theorem search_loop_in_bounds {L : QMiner} {HL : QMinerLaws L}
    (sim : Vector) (maxCount : Z) (minSim : Q) :
  ∃ idVec simVec,
    search_loop sim (perm (la_sortPerm sim false)) minSim
      (Z.to_nat (clamp maxCount (perm (la_sortPerm sim false)))) 0 [] [] =
    Return (idVec, simVec).
Proof. rewrite search_loop_emitted. eauto. Qed.

(** * The further properties at work *)

Lemma search_ids_distinct_witness : NoDup [0; 2].
Proof.
  apply (@search_ids_distinct lib_plain lib_plain_laws plain_world
           "learning french" 2 (1 # 10) [0; 2] [1; 15 # 25]%Q).
  vm_compute. reflexivity.
Defined.

Lemma search_top_of_ranking_witness :
  [0; 2] = take (length [0; 2])
             (perm (la_sortPerm (QMiner := lib_plain)
                      (transposed_product [unit_x; unit_y; diagonal] unit_x) false)) ∧
  [1; 15 # 25]%Q = take (length [0; 2])
             (vec (la_sortPerm (QMiner := lib_plain)
                     (transposed_product [unit_x; unit_y; diagonal] unit_x) false)).
Proof.
  apply (@search_top_of_ranking lib_plain lib_plain_laws plain_world
           "learning french" 2 (1 # 10) [unit_x; unit_y; diagonal] unit_x
           [0; 2] [1; 15 # 25]%Q plain_features).
  vm_compute. reflexivity.
Defined.

Lemma search_returns_best_witness : (0 <= 15 # 25)%Q.
Proof.
  apply (@search_returns_best lib_plain lib_plain_laws plain_world
           "learning french" 2 (1 # 10) [unit_x; unit_y; diagonal] unit_x
           [0; 2] [1; 15 # 25]%Q plain_features) with (id := 2) (id' := 1).
  - vm_compute. reflexivity.
  - apply list_elem_of_In. simpl. auto.
  - intros Hin. apply list_elem_of_In in Hin. simpl in Hin.
    destruct Hin as [|[|[]]]; discriminate.
  - vm_compute. reflexivity.
  - vm_compute. reflexivity.
Defined.

Lemma search_short_below_threshold_witness :
  (Z.of_nat (length [0; 2]) < Z.min 3 (Z.of_nat (length [unit_x; unit_y; diagonal])))%Z ∧
  (0 < 1 # 10)%Q.
Proof.
  split; [simpl; lia |].
  apply (@search_short_below_threshold lib_plain lib_plain_laws plain_world
           "learning french" 3 (1 # 10) [unit_x; unit_y; diagonal] unit_x
           [0; 2] [1; 15 # 25]%Q plain_features) with (id' := 1).
  - vm_compute. reflexivity.
  - simpl. lia.
  - intros Hin. apply list_elem_of_In in Hin. simpl in Hin.
    destruct Hin as [|[|[]]]; discriminate.
  - vm_compute. reflexivity.
Defined.

Lemma search_count_witness :
  Z.of_nat (length [0; 2]) =
  Z.min 2 (Z.of_nat (length (List.filter (λ s, Qle_bool (1 # 10) s)
                               (transposed_product [unit_x; unit_y; diagonal] unit_x)))).
Proof.
  apply (@search_count lib_plain lib_plain_laws plain_world
           "learning french" 2 (1 # 10) [unit_x; unit_y; diagonal] unit_x
           [0; 2] [1; 15 # 25]%Q plain_features);
    [vm_compute; reflexivity | lia].
Defined.

Lemma search_all_above_threshold_witness :
  (Z.of_nat (length [unit_x; unit_y; diagonal]) ≤ 5)%Z ∧
  (1 ∈ [0; 2] ↔
   ∃ s, transposed_product [unit_x; unit_y; diagonal] unit_x !! 1 = Some s ∧
        (1 # 10 <= s)%Q).
Proof.
  split; [simpl; lia |].
  apply (@search_all_above_threshold lib_plain lib_plain_laws plain_world
           "learning french" 5 (1 # 10) [unit_x; unit_y; diagonal] unit_x
           [0; 2] [1; 15 # 25]%Q plain_features);
    [vm_compute; reflexivity | simpl; lia].
Defined.

Lemma search_maxCount_prefix_witness :
  [0] `prefix_of` [0; 2] ∧ [1%Q] `prefix_of` [1; 15 # 25]%Q.
Proof.
  apply (@search_maxCount_prefix lib_plain lib_plain_laws plain_world
           "learning french" (1 # 10) 1 2 [0] [1%Q] [0; 2] [1; 15 # 25]%Q);
    [lia | vm_compute; reflexivity | vm_compute; reflexivity].
Defined.

Lemma search_minSim_prefix_witness :
  [0] `prefix_of` [0; 2] ∧ [1%Q] `prefix_of` [1; 15 # 25]%Q.
Proof.
  apply (@search_minSim_prefix lib_plain lib_plain_laws plain_world
           "learning french" 2 (1 # 10) 1 [0; 2] [1; 15 # 25]%Q [0] [1%Q]);
    [vm_compute; discriminate | vm_compute; reflexivity | vm_compute; reflexivity].
Defined.

Lemma search_maxCount_saturates_witness :
  @search lib_plain "learning french" 7 (1 # 10) plain_world =
  @search lib_plain "learning french"
    (Z.of_nat (length [unit_x; unit_y; diagonal])) (1 # 10) plain_world.
Proof.
  apply (@search_maxCount_saturates lib_plain lib_plain_laws plain_world
           "learning french" 7 (1 # 10) [unit_x; unit_y; diagonal]);
    [reflexivity | simpl; lia].
Defined.

Lemma application_dies_on_search_error_witness :
  @application lib_checked nat vec_at mismatched_world =
  ([], Uncaught TypeError, mismatched_world).
Proof.
  apply (@application_dies_on_search_error lib_checked lib_checked_laws nat vec_at
           mismatched_world "dimensions mismatch").
  right. exists (mail "learning french"). split; [reflexivity |].
  right. exists [longer]. split; [reflexivity |].
  right. exists unit_x. split; reflexivity.
Defined.

Lemma application_closes_iff_witness :
  CloseBase ∈ (@application lib_plain nat vec_at plain_world).1.1 ↔
  ∃ ids weights rec,
    (@search_default lib_plain "learning french" plain_world).1 =
    Return (Pair ids weights) ∧
    vec_at ids 1 = Return rec.
Proof.
  apply (@application_closes_iff lib_plain lib_plain_laws nat vec_at plain_world).
Defined.

Lemma application_trace_witness :
  @application lib_plain nat vec_at plain_world =
  ([LogSimilarity (Some 1%Q); LogRecord 2;
    LogSimilarity (Some (15 # 25)%Q); LogRecord 2;
    LogSimilarity None; LogRecord 2;
    LogSimilarity None; LogRecord 2;
    LogSimilarity None; LogRecord 2;
    CloseBase], Completed, plain_world).
Proof.
  apply (@application_trace lib_plain lib_plain_laws nat vec_at plain_world
           [0; 2] [1; 15 # 25]%Q 2);
    [vm_compute; reflexivity | reflexivity].
Defined.

Lemma search_loop_in_bounds_witness :
  ∃ idVec simVec,
    search_loop [1; 0; 3 # 5]%Q
      (perm (la_sortPerm (QMiner := lib_plain) [1; 0; 3 # 5]%Q false)) (1 # 10)
      (Z.to_nat (clamp 100
         (perm (la_sortPerm (QMiner := lib_plain) [1; 0; 3 # 5]%Q false)))) 0 [] [] =
    Return (idVec, simVec).
Proof.
  apply (@search_loop_in_bounds lib_plain lib_plain_laws [1; 0; 3 # 5]%Q 100 (1 # 10)).
Defined.
